(** * RedisManager: named connection registry, default router and shutdown

    Shallow embedding of [src/index.ts].  The class [RedisManager] has two
    static fields ([instances], [initialized]) and the static methods [init],
    [createInstance], [connection], [createProxy], [shutdown] and
    [registerShutdownHooks]; the last one installs the signal handlers that
    call [shutdown].  The transport client (ioredis) is an external
    collaborator: a client is modelled by its identity, the options object it
    was constructed with and the key captured by the observers wired to it;
    which members a client exposes is a parameter of the development. *)

From Stdlib Require Import ZArith.
From stdpp Require Import base option list gmap strings.

(** ** Data model *)

Module Redis.

(** Values found in an options object.  A retry strategy maps the attempt
    number to the delay before the next attempt; ioredis stops reconnecting
    when the strategy returns something that is not a number, which is
    [None] here. *)
Inductive OptVal :=
| ONum (z : Z)
| OStr (s : string)
| OBool (b : bool)
| ONull
| OStrategy (f : Z → option Z).

(** [RedisOptions]: an object from field name to value. *)
Abbreviation RedisOptions := (gmap string OptVal).

(** [RedisMangerConfig]: the keys of the object in [Object.keys] order, each
    with its options. *)
Abbreviation Config := (list (string * RedisOptions)).

(** A constructed client.  [client_id] is the object identity (the number of
    clients constructed before it), [client_options] the object passed to
    [new RedisClient], [client_key] the [key] captured by the closures that
    [createInstance] attaches with [client.on]. *)
Record RedisClient := {
  client_id : nat;
  client_options : RedisOptions;
  client_key : string
}.

(** Transport events observed by the closures of [createInstance]. *)
Inductive Event := connect | ready | error | close | reconnecting | end_.

(** The two [Error]s thrown by the class, told apart by their message:
    [Redis connection "key" not found] and [Redis method prop not found]. *)
Inductive Error :=
| NotFound (key : string)
| UnsupportedOperation (prop : string).

Inductive result (A : Type) :=
| Ok (a : A)
| Throw (e : Error).
Arguments Ok {A} a.
Arguments Throw {A} e.

(** The process state: the two static fields of the class, the clients
    constructed so far (oldest first), the identities of the clients on
    which [quit()] was called or whose transport ended, and the calls of
    [shutdown] suspended at [await Promise.all(promises)], each with the
    clients whose [quit()] promise it waits for. *)
Record State := {
  instances : gmap string RedisClient;
  initialized : bool;
  heap : list RedisClient;
  quitting : list nat;
  ended : list nat;
  suspended : list (list RedisClient)
}.

Definition initial : State :=
  {| instances := ∅; initialized := false; heap := [];
     quitting := []; ended := []; suspended := [] |}.

Definition set_initialized (b : bool) (st : State) : State :=
  {| instances := instances st; initialized := b; heap := heap st;
     quitting := quitting st; ended := ended st; suspended := suspended st |}.

(** ** Client factory *)

(** [retryStrategy: (times) => Math.min(times * 100, 5000)].  The attempt
    counter of the transport is an integer, on which the arithmetic of
    JavaScript numbers is exact. *)
Definition retryStrategy (times : Z) : option Z :=
  Some (Z.min (times * 100) 5000)%Z.

(** The object literal [{...opt, retryStrategy, enableOfflineQueue: true,
    maxRetriesPerRequest: 3}]: the spread first, the three fields after. *)
Definition forced_options (opt : RedisOptions) : RedisOptions :=
  <["maxRetriesPerRequest" := ONum 3]>
    (<["enableOfflineQueue" := OBool true]>
       (<["retryStrategy" := OStrategy retryStrategy]> opt)).

(** [new RedisClient(...)] followed by the six [client.on] calls. *)
Definition new_client (key : string) (opt : RedisOptions) (st : State)
  : RedisClient :=
  {| client_id := length (heap st);
     client_options := forced_options opt;
     client_key := key |}.

Definition createInstance (key : string) (opt : RedisOptions) (st : State)
  : RedisClient * State :=
  match instances st !! key with
  | Some c => (c, st)
  | None =>
      let client := new_client key opt st in
      (client,
       {| instances := <[key := client]> (instances st);
          initialized := initialized st;
          heap := heap st ++ [client];
          quitting := quitting st;
          ended := ended st;
          suspended := suspended st |})
  end.

(** The observers: five of them only report; the [end] observer also runs
    [this.instances.delete(key)] with the key captured at creation. *)
Definition observe (ev : Event) (c : RedisClient) (st : State) : State :=
  match ev with
  | end_ =>
      {| instances := delete (client_key c) (instances st);
         initialized := initialized st;
         heap := heap st;
         quitting := quitting st;
         ended := ended st ++ [client_id c];
         suspended := suspended st |}
  | _ => st
  end.

(** ** Registry lookup *)

Definition connection (key : string) (st : State) : result RedisClient :=
  match instances st !! key with
  | None => Throw (NotFound key)
  | Some c => Ok c
  end.

(** ** Default router *)

(** What a client exposes under a property name: a function or a plain
    value.  The table belongs to the transport library. *)
Inductive Member :=
| MFunction (f : string)
| MPlain (v : OptVal).

(** What the [get] trap returns: [value.bind(client)] or the value itself. *)
Inductive Value :=
| VBound (f : string) (receiver : RedisClient)
| VPlain (v : OptVal).

(** Own properties of the object wrapped by the proxy.  The only value ever
    stored there is the static method [RedisManager.connection]. *)
Inductive TargetProp := ManagerConnection.

Record Proxy := { target : gmap string TargetProp }.

(** The outcome of the expression [proxy.prop(args)]. *)
Inductive Outcome :=
| Raised (e : Error)
| Forwarded (f : string) (receiver : RedisClient) (args : list string)
| NotAFunction (v : OptVal).

Section Router.

(** [prop in client] and [client[prop]], for the clients of the transport. *)
Variable member : RedisClient → string → option Member.

(** The [get] trap of the handler; its first argument, the target, is
    not used.  [forward] is the part of the trap after the lookup: the
    test [prop in client], the read and the bind. *)
Definition forward (client : RedisClient) (prop : string) : result Value :=
  match member client prop with
  | Some (MFunction f) => Ok (VBound f client)
  | Some (MPlain v) => Ok (VPlain v)
  | None => Throw (UnsupportedOperation prop)
  end.

Definition get_trap (prop : string) (st : State) : result Value :=
  match connection "default" st with
  | Throw e => Throw e
  | Ok client => forward client prop
  end.

(** Reading a property of the proxy.  The handler has a [get] trap, so
    every read is answered by the trap; the own properties of the target
    are writable and configurable, so no invariant of the proxy compares
    the answer with them. *)
Definition proxy_get (p : Proxy) (prop : string) (st : State)
  : result Value :=
  get_trap prop st.

(** Writing a property of the proxy.  The handler has no [set] trap, so
    the write defines the property on the target. *)
Definition proxy_set (p : Proxy) (prop : string) (v : TargetProp) : Proxy :=
  {| target := <[prop := v]> (target p) |}.

Definition createProxy : Proxy :=
  proxy_set {| target := ∅ |} "connection" ManagerConnection.

(** [proxy.prop(args)]: read the property, then call what was read. *)
Definition invoke (p : Proxy) (prop : string) (args : list string)
  (st : State) : Outcome :=
  match proxy_get p prop st with
  | Throw e => Raised e
  | Ok (VBound f c) => Forwarded f c args
  | Ok (VPlain v) => NotAFunction v
  end.

End Router.

(** ** Shutdown *)

Inductive Settlement := Fulfilled | Rejected.

(** The clients visited by [this.instances.forEach].  The order of the
    visit is the insertion order of the [Map]; [map_to_list] gives the same
    clients in key order. *)
Definition registered (st : State) : list RedisClient :=
  (map_to_list (instances st)).*2.

(** [shutdown()] up to [await Promise.all(promises)]: nothing when the flag
    is unset; otherwise [quit()] is called on every registered client and
    the call is parked with the promises it waits for. *)
Definition shutdown (st : State) : State :=
  if negb (initialized st) then st
  else
    {| instances := instances st;
       initialized := initialized st;
       heap := heap st;
       quitting := quitting st ++ (client_id <$> registered st);
       ended := ended st;
       suspended := suspended st ++ [registered st] |}.

(** [Promise.all]: fulfilled when every promise is, rejected when one is. *)
Definition Promise_all (quit_ok : RedisClient → bool)
  (promises : list RedisClient) : Settlement :=
  if forallb quit_ok promises then Fulfilled else Rejected.

(** The rest of the [i]-th parked call, run when its [Promise.all] settles:
    on fulfilment the two statements after the [await]; on rejection the
    [await] throws and the call rejects without running them. *)
Definition shutdown_resume (i : nat) (quit_ok : RedisClient → bool)
  (st : State) : option (State * Settlement) :=
  match suspended st !! i with
  | None => None
  | Some promises =>
      match Promise_all quit_ok promises with
      | Fulfilled =>
          Some ({| instances := ∅;
                   initialized := false;
                   heap := heap st;
                   quitting := quitting st;
                   ended := ended st;
                   suspended := delete i (suspended st) |}, Fulfilled)
      | Rejected =>
          Some ({| instances := instances st;
                   initialized := initialized st;
                   heap := heap st;
                   quitting := quitting st;
                   ended := ended st;
                   suspended := delete i (suspended st) |}, Rejected)
      end
  end.

(** [await RedisManager.shutdown()] with nothing else scheduled between the
    call and its settlement, as in the signal handlers. *)
Definition shutdown_await (quit_ok : RedisClient → bool) (st : State)
  : option (State * Settlement) :=
  if negb (initialized st) then Some (st, Fulfilled)
  else shutdown_resume (length (suspended st)) quit_ok (shutdown st).

(** ** Initialization *)

Definition Object_keys (config : Config) : list string := config.*1.

(** [config[key]] *)
Fixpoint config_get (config : Config) (key : string) : RedisOptions :=
  match config with
  | [] => ∅
  | (k, opt) :: rest => if decide (k = key) then opt else config_get rest key
  end.

(** The [for] loop of [init]. *)
Definition create_all (config : Config) (st : State) : State :=
  foldl (λ s key, (createInstance key (config_get config key) s).2)
        st (Object_keys config).

(** [init] is not an [async] function and does not [await] the promise of
    [this.shutdown()]: of the forced shutdown, only the part before its
    [await] has run when the loop starts. *)
Definition init (config : Config) (force : bool) (st : State)
  : Proxy * State :=
  if initialized st && negb force then (createProxy, st)
  else
    let st1 := if force then shutdown st else st in
    let st2 := create_all config st1 in
    (createProxy, set_initialized true st2).

(** ** Runs of the process *)

(** What can happen to the registry: a call of [init]; a call of
    [shutdown] by a termination-signal handler; the settlement of a parked
    [shutdown]; a transport event of a constructed client. *)
Inductive Op :=
| CallInit (config : Config) (force : bool)
| CallShutdown
| Settle (i : nat) (quit_ok : RedisClient → bool)
| Emit (ev : Event) (id : nat).

Definition step (st : State) (op : Op) : State :=
  match op with
  | CallInit config force => (init config force st).2
  | CallShutdown => shutdown st
  | Settle i quit_ok =>
      match shutdown_resume i quit_ok st with
      | Some (st', _) => st'
      | None => st
      end
  | Emit ev id =>
      match heap st !! id with
      | Some c => observe ev c st
      | None => st
      end
  end.

Definition run (ops : list Op) (st : State) : State := foldl step st ops.

(** A client is live when it was constructed, [quit()] was never called on
    it and its transport has not ended. *)
Definition live (st : State) (c : RedisClient) : Prop :=
  c ∈ heap st ∧ (client_id c ∉ quitting st) ∧ (client_id c ∉ ended st).

(** ** Sample inputs *)

Definition one_config : Config := [("default", ∅)].

Definition two_config : Config :=
  [("default", {["host" := OStr "10.0.0.1"]});
   ("cache", {["host" := OStr "10.0.0.2"; "maxRetriesPerRequest" := ONull]})].

(** The state after [init(two_config)] on a fresh process. *)
Definition two_clients : State := (init two_config false initial).2.

(** A fragment of the member table of the transport client: three commands
    and the [status] field.  The client has no member called [connection]. *)
Definition sample_member (c : RedisClient) (prop : string) : option Member :=
  if decide (prop = "get") then Some (MFunction "get")
  else if decide (prop = "set") then Some (MFunction "set")
  else if decide (prop = "quit") then Some (MFunction "quit")
  else if decide (prop = "status") then Some (MPlain (OStr "ready"))
  else None.

(** ** Facts about the factory *)

Lemma createInstance_existing key opt st c :
  instances st !! key = Some c → createInstance key opt st = (c, st).
Proof. intros H. unfold createInstance. by rewrite H. Qed.

Lemma createInstance_fresh key opt st :
  instances st !! key = None →
  (createInstance key opt st).1 = new_client key opt st
  ∧ instances (createInstance key opt st).2
    = <[key := new_client key opt st]> (instances st)
  ∧ heap (createInstance key opt st).2 = heap st ++ [new_client key opt st].
Proof. intros H. unfold createInstance. by rewrite H. Qed.

Lemma createInstance_registers key opt st :
  instances (createInstance key opt st).2 !! key
  = Some (createInstance key opt st).1.
Proof.
  unfold createInstance.
  destruct (instances st !! key) as [c|] eqn:E; simpl; [done|].
  apply lookup_insert_eq.
Qed.

Lemma createInstance_keeps key opt st k c :
  instances st !! k = Some c →
  instances (createInstance key opt st).2 !! k = Some c.
Proof.
  intros H. unfold createInstance.
  destruct (instances st !! key) as [c'|] eqn:E; simpl; [done|].
  rewrite lookup_insert_ne; [done|]. intros ->. congruence.
Qed.

Lemma createInstance_frame key opt st :
  initialized (createInstance key opt st).2 = initialized st
  ∧ quitting (createInstance key opt st).2 = quitting st
  ∧ ended (createInstance key opt st).2 = ended st
  ∧ suspended (createInstance key opt st).2 = suspended st.
Proof. unfold createInstance. by destruct (instances st !! key). Qed.

Lemma create_loop_keeps (f : string → RedisOptions) keys st k c :
  instances st !! k = Some c →
  instances (foldl (λ s key, (createInstance key (f key) s).2) st keys) !! k
  = Some c.
Proof.
  revert st. induction keys as [|key keys IH]; intros st H; simpl; [done|].
  apply IH. by apply createInstance_keeps.
Qed.

Lemma create_loop_frame (f : string → RedisOptions) keys st :
  let st' := foldl (λ s key, (createInstance key (f key) s).2) st keys in
  initialized st' = initialized st ∧ quitting st' = quitting st
  ∧ ended st' = ended st ∧ suspended st' = suspended st.
Proof.
  revert st. induction keys as [|key keys IH]; intros st; simpl; [done|].
  destruct (IH (createInstance key (f key) st).2) as (-> & -> & -> & ->).
  apply createInstance_frame.
Qed.

Lemma create_all_keeps config st k c :
  instances st !! k = Some c → instances (create_all config st) !! k = Some c.
Proof. apply create_loop_keeps. Qed.

(** ** Facts about [init] and [shutdown] *)

Lemma init_initialized config force st :
  initialized (init config force st).2 = true.
Proof.
  unfold init. destruct (initialized st && negb force) eqn:E; simpl; [|done].
  by apply andb_true_iff in E as [-> _].
Qed.

Lemma init_router config force st : (init config force st).1 = createProxy.
Proof. unfold init. by destruct (initialized st && negb force). Qed.

Lemma shutdown_instances st : instances (shutdown st) = instances st.
Proof. unfold shutdown. by destruct (initialized st). Qed.

Lemma init_keeps config force st k c :
  instances st !! k = Some c → instances (init config force st).2 !! k = Some c.
Proof.
  intros H. unfold init.
  destruct (initialized st && negb force); simpl; [done|].
  apply create_all_keeps. destruct force; [by rewrite shutdown_instances|done].
Qed.

(** A forced [init] on an initialized registry returns with the shutdown it
    started still parked, and with every entry it found still in place. *)
Lemma init_force_overlaps config st :
  initialized st = true →
  suspended (init config true st).2 = suspended st ++ [registered st]
  ∧ ∀ k c, instances st !! k = Some c →
           instances (init config true st).2 !! k = Some c.
Proof.
  intros Hi. split; [|intros k c; apply init_keeps].
  unfold init. rewrite Hi. simpl.
  pose proof (create_loop_frame (config_get config) (Object_keys config)
                (shutdown st)) as (_ & _ & _ & Hs).
  unfold create_all. rewrite Hs. unfold shutdown. by rewrite Hi.
Qed.

Lemma registered_elem st k c :
  instances st !! k = Some c → c ∈ registered st.
Proof.
  intros H. unfold registered. apply list_elem_of_fmap.
  exists (k, c). split; [done|]. by apply elem_of_map_to_list.
Qed.

Lemma shutdown_parks st :
  initialized st = true →
  suspended (shutdown st) !! length (suspended st) = Some (registered st).
Proof.
  intros Hi. unfold shutdown. rewrite Hi. simpl.
  rewrite lookup_app_r; [|done]. by rewrite Nat.sub_diag.
Qed.

(** ** Reachable states *)

(** While the flag is unset the mapping is empty. *)
Definition coherent (st : State) : Prop :=
  initialized st = false → instances st = ∅.

Lemma step_coherent st op : coherent st → coherent (step st op).
Proof.
  unfold coherent. intros Hc. destruct op as [config force| |i quit_ok|ev id]; simpl.
  - rewrite init_initialized. discriminate.
  - unfold shutdown. destruct (initialized st) eqn:E; simpl; [done|auto].
  - unfold shutdown_resume.
    destruct (suspended st !! i) as [promises|]; [|done].
    destruct (Promise_all quit_ok promises); simpl; [done|auto].
  - destruct (heap st !! id) as [c|]; [|done].
    destruct ev; simpl; try done.
    intros Hi. rewrite (Hc Hi). apply delete_empty.
Qed.

Lemma run_coherent ops st : coherent st → coherent (run ops st).
Proof.
  revert st. induction ops as [|op ops IH]; intros st Hc; simpl; [done|].
  apply IH. by apply step_coherent.
Qed.

Lemma initial_coherent : coherent initial.
Proof. by intros _. Qed.

(** ** Idempotent creation *)

(** C7: two calls of [createInstance] with the same name, whatever the two
    option records, return the same client; the second call constructs no
    client and leaves the state, hence the entry of that name, as the
    first call left it. *)
Theorem C7_createInstance_twice key opt1 opt2 st :
  let r1 := createInstance key opt1 st in
  let r2 := createInstance key opt2 r1.2 in
  r2.1 = r1.1
  ∧ r2.2 = r1.2
  ∧ heap r2.2 = heap r1.2
  ∧ instances r2.2 !! key = Some r1.1.
Proof.
  intros r1 r2. subst r2.
  rewrite (createInstance_existing key opt2 r1.2 r1.1)
    by apply createInstance_registers.
  simpl. repeat split. apply createInstance_registers.
Qed.

(** ** Registry lookup *)

(** C8: [connection key] throws the not-found error exactly when no client
    is registered under [key], and returns the registered client
    otherwise; it throws for every key before any initialization and after
    a shutdown that resolved. *)
Theorem C8_connection_lookup key st :
  (connection key st = Throw (NotFound key) ↔ instances st !! key = None)
  ∧ (∀ c, instances st !! key = Some c ↔ connection key st = Ok c)
  ∧ connection key initial = Throw (NotFound key)
  ∧ (∀ ops quit_ok st',
       shutdown_await quit_ok (run ops initial) = Some (st', Fulfilled) →
       connection key st' = Throw (NotFound key)).
Proof.
  unfold connection. repeat split.
  - by destruct (instances st !! key).
  - by intros ->.
  - by intros ->.
  - destruct (instances st !! key); naive_solver.
  - intros ops quit_ok st'. unfold shutdown_await.
    pose proof (run_coherent ops initial initial_coherent) as Hc.
    unfold coherent in Hc.
    destruct (initialized (run ops initial)) eqn:Hi; simpl.
    + unfold shutdown_resume.
      destruct (suspended (shutdown (run ops initial)) !! _); [|done].
      destruct (Promise_all quit_ok l); [|done].
      intros [= <-]. simpl. by rewrite lookup_empty.
    + intros [= <-]. by rewrite (Hc eq_refl).
Qed.

Lemma C8_connection_lookup_witness :
  connection "cache" (run [CallInit two_config false] initial)
  = Ok (new_client "cache" (config_get two_config "cache")
          (run [CallInit one_config false] initial))
  ∧ connection "nonexistent" (run [CallInit two_config false] initial)
    = Throw (NotFound "nonexistent").
Proof.
  split.
  - apply (proj1 (proj2 (C8_connection_lookup "cache" _))). reflexivity.
  - apply (proj1 (C8_connection_lookup "nonexistent" _)). reflexivity.
Defined.

(** ** Default router *)

Section RouterFacts.

Variable member : RedisClient → string → option Member.

(** A read through any router is answered from the entry that the mapping
    holds under [default] at the time of the read. *)
Lemma proxy_get_current p prop st :
  proxy_get member p prop st
  = match instances st !! "default" with
    | Some d => forward member d prop
    | None => Throw (NotFound "default")
    end.
Proof.
  unfold proxy_get, get_trap, connection.
  by destruct (instances st !! "default").
Qed.

(** C6: for every property name read on the router: when a client is
    registered under [default] and exposes the name, a function is returned
    bound to that client (so that a call runs with the client as receiver)
    and a plain value is returned as it is; when the client does not expose
    the name the read throws the unsupported-operation error; when no
    client is registered under [default] the read throws not-found. *)
Theorem C6_router_forwarding p prop st :
  (∀ d f, instances st !! "default" = Some d →
          member d prop = Some (MFunction f) →
          proxy_get member p prop st = Ok (VBound f d)
          ∧ ∀ args, invoke member p prop args st = Forwarded f d args)
  ∧ (∀ d v, instances st !! "default" = Some d →
            member d prop = Some (MPlain v) →
            proxy_get member p prop st = Ok (VPlain v))
  ∧ (∀ d, instances st !! "default" = Some d →
          member d prop = None →
          proxy_get member p prop st = Throw (UnsupportedOperation prop))
  ∧ (instances st !! "default" = None →
     proxy_get member p prop st = Throw (NotFound "default")).
Proof.
  unfold invoke. rewrite proxy_get_current. unfold forward.
  split; [|split; [|split]].
  - intros d f -> Hm. by rewrite Hm.
  - intros d v -> Hm. by rewrite Hm.
  - intros d -> Hm. by rewrite Hm.
  - by intros ->.
Qed.

End RouterFacts.

(** The router of [two_clients] reads [get] as the command bound to the
    default client, [status] as it is, and throws for [connection]. *)
Lemma C6_router_forwarding_witness :
  let d := new_client "default" (config_get two_config "default") initial in
  proxy_get sample_member createProxy "get" two_clients = Ok (VBound "get" d)
  ∧ invoke sample_member createProxy "get" ["k"] two_clients
    = Forwarded "get" d ["k"]
  ∧ proxy_get sample_member createProxy "status" two_clients
    = Ok (VPlain (OStr "ready"))
  ∧ proxy_get sample_member createProxy "connection" two_clients
    = Throw (UnsupportedOperation "connection")
  ∧ proxy_get sample_member createProxy "get" initial
    = Throw (NotFound "default").
Proof.
  intros d.
  pose proof (C6_router_forwarding sample_member createProxy "get" two_clients)
    as (Hf & _ & _ & _).
  pose proof (C6_router_forwarding sample_member createProxy "status" two_clients)
    as (_ & Hv & _ & _).
  pose proof (C6_router_forwarding sample_member createProxy "connection" two_clients)
    as (_ & _ & Hu & _).
  pose proof (C6_router_forwarding sample_member createProxy "get" initial)
    as (_ & _ & _ & Hn).
  destruct (Hf d "get" eq_refl eq_refl) as [Hg Hi].
  split; [exact Hg|]. split; [apply Hi|].
  split; [by apply (Hv d)|]. split; [by apply (Hu d)|]. by apply Hn.
Defined.

(** ** Repeated initialization *)

(** C5: on an initialized registry, [init] without [force] constructs no
    client, leaves the mapping and the flag (the whole state) as they were,
    and returns a router equal to the one that any earlier [init] returned:
    same own properties, same answers in every state. *)
Theorem C5_init_again config st :
  initialized st = true →
  (init config false st).2 = st
  ∧ heap (init config false st).2 = heap st
  ∧ instances (init config false st).2 = instances st
  ∧ initialized (init config false st).2 = true
  ∧ ∀ config0 force0 st0,
      (init config false st).1 = (init config0 force0 st0).1
      ∧ ∀ member prop st',
          proxy_get member (init config false st).1 prop st'
          = proxy_get member (init config0 force0 st0).1 prop st'.
Proof.
  intros Hi. unfold init at 1 2 3 4. rewrite Hi. simpl.
  repeat split; try done; by rewrite !init_router.
Qed.

Lemma C5_init_again_witness :
  (init one_config false (init two_config false initial).2).2
  = (init two_config false initial).2.
Proof.
  apply (C5_init_again one_config (init two_config false initial).2).
  reflexivity.
Defined.

(** ** Resilience policy *)

(** The three fields that the factory forces: the strategy held by the
    client answers every attempt number [n] with the delay
    [min (n * 100) 5000], so that reconnection is never given up; the
    offline queue is on; a request is retried at most 3 times. *)
Definition has_policy (c : RedisClient) : Prop :=
  (∃ f, client_options c !! "retryStrategy" = Some (OStrategy f)
        ∧ ∀ n : Z, f n = Some (Z.min (n * 100) 5000))
  ∧ client_options c !! "enableOfflineQueue" = Some (OBool true)
  ∧ client_options c !! "maxRetriesPerRequest" = Some (ONum 3).

Lemma new_client_policy key opt st : has_policy (new_client key opt st).
Proof.
  unfold has_policy, new_client, forced_options. simpl. split; [|split].
  - exists retryStrategy. split; [|done].
    rewrite !lookup_insert_ne by done. apply lookup_insert_eq.
  - rewrite lookup_insert_ne by done. apply lookup_insert_eq.
  - apply lookup_insert_eq.
Qed.

Lemma createInstance_policy key opt st :
  Forall has_policy (heap st) →
  Forall has_policy (heap (createInstance key opt st).2).
Proof.
  intros H. unfold createInstance.
  destruct (instances st !! key); simpl; [done|].
  apply Forall_app. split; [done|].
  apply Forall_singleton, new_client_policy.
Qed.

Lemma create_loop_policy (f : string → RedisOptions) keys st :
  Forall has_policy (heap st) →
  Forall has_policy
    (heap (foldl (λ s key, (createInstance key (f key) s).2) st keys)).
Proof.
  revert st. induction keys as [|key keys IH]; intros st H; simpl; [done|].
  apply IH. by apply createInstance_policy.
Qed.

Lemma shutdown_heap st : heap (shutdown st) = heap st.
Proof. unfold shutdown. by destruct (initialized st). Qed.

Lemma step_policy st op :
  Forall has_policy (heap st) → Forall has_policy (heap (step st op)).
Proof.
  intros H. destruct op as [config force| |i quit_ok|ev id]; simpl.
  - unfold init. destruct (initialized st && negb force); simpl; [done|].
    apply create_loop_policy. destruct force; [by rewrite shutdown_heap|done].
  - by rewrite shutdown_heap.
  - unfold shutdown_resume.
    destruct (suspended st !! i) as [promises|]; [|done].
    by destruct (Promise_all quit_ok promises).
  - destruct (heap st !! id) as [c|]; [|done]. by destruct ev.
Qed.

Lemma run_policy ops st :
  Forall has_policy (heap st) → Forall has_policy (heap (run ops st)).
Proof.
  revert st. induction ops as [|op ops IH]; intros st H; simpl; [done|].
  apply IH. by apply step_policy.
Qed.

(** C9: every client that [createInstance] constructs carries the fixed
    policy whatever the options of the caller: backoff
    [min (n * 100) 5000] for every attempt [n], offline queue enabled, 3
    retries per request.  It holds of the client returned for an
    unregistered name and of every client constructed in any run. *)
Theorem C9_forced_policy :
  (∀ key opt st, instances st !! key = None →
                 has_policy (createInstance key opt st).1)
  ∧ (∀ ops c, c ∈ heap (run ops initial) → has_policy c).
Proof.
  split.
  - intros key opt st H. unfold createInstance. rewrite H. simpl.
    apply new_client_policy.
  - intros ops c Hc.
    assert (Forall has_policy (heap (run ops initial))) as Hf
      by (apply run_policy; constructor).
    rewrite Forall_forall in Hf. by apply Hf.
Qed.

(** The caller asks for no retry strategy and for unlimited retries per
    request; the constructed client holds the forced values. *)
Lemma C9_forced_policy_witness :
  has_policy
    (createInstance "cache"
       {["retryStrategy" := ONull; "maxRetriesPerRequest" := ONull;
         "enableOfflineQueue" := OBool false]} initial).1.
Proof.
  apply (proj1 C9_forced_policy). reflexivity.
Defined.

(** ** Entries are removed, never replaced *)

(** One step leaves an entry in place or removes it. *)
Lemma step_entry st op k c :
  instances st !! k = Some c →
  instances (step st op) !! k = Some c ∨ instances (step st op) !! k = None.
Proof.
  intros H. destruct op as [config force| |i quit_ok|ev id]; simpl.
  - left. by apply init_keeps.
  - left. by rewrite shutdown_instances.
  - unfold shutdown_resume.
    destruct (suspended st !! i) as [promises|]; [|by left].
    destruct (Promise_all quit_ok promises); simpl; [by right|by left].
  - destruct (heap st !! id) as [c'|]; [|by left].
    destruct ev; simpl; try by left.
    destruct (decide (client_key c' = k)) as [->|Hne].
    + right. apply lookup_delete_eq.
    + left. by rewrite lookup_delete_ne.
Qed.

(** The step that removes an entry is the [end] event of a client created
    under that name, or a settlement that clears the whole mapping. *)
Lemma step_removal st op k c :
  instances st !! k = Some c →
  instances (step st op) !! k = None →
  (∃ id c', op = Emit end_ id ∧ heap st !! id = Some c' ∧ client_key c' = k)
  ∨ (∃ i quit_ok, op = Settle i quit_ok ∧ instances (step st op) = ∅).
Proof.
  intros H. destruct op as [config force| |i quit_ok|ev id]; simpl.
  - rewrite (init_keeps config force st k c H). discriminate.
  - rewrite shutdown_instances, H. discriminate.
  - unfold shutdown_resume.
    destruct (suspended st !! i) as [promises|]; [|by rewrite H].
    destruct (Promise_all quit_ok promises); simpl; [|by rewrite H].
    intros _. right. by exists i, quit_ok.
  - destruct (heap st !! id) as [c'|] eqn:Hh; [|by rewrite H].
    destruct ev; simpl; try by rewrite H.
    destruct (decide (client_key c' = k)) as [<-|Hne].
    + intros _. left. by exists id, c'.
    + rewrite lookup_delete_ne by done. by rewrite H.
Qed.

(** Along a run in which the name stays registered, the entry stays the
    same client. *)
Lemma run_entry ops st k c c' :
  instances st !! k = Some c →
  instances (run ops st) !! k = Some c' →
  (∀ n, n ≤ length ops → is_Some (instances (run (take n ops) st) !! k)) →
  c' = c.
Proof.
  revert st. induction ops as [|op ops IH]; intros st H Hrun Hall; simpl in *.
  - congruence.
  - destruct (step_entry st op k c H) as [Hs|Hs].
    + apply (IH (step st op)); [done|done|].
      intros n Hn. apply (Hall (S n)). lia.
    + specialize (Hall 1 ltac:(lia)). simpl in Hall.
      rewrite Hs in Hall. by destruct Hall.
Qed.

(** C10: an entry of the mapping is never overwritten.  In every step of
    every run a registered client stays under its name or the name becomes
    unregistered; what unregisters it is the [end] observer of a client
    created under that name or the clearing done by [shutdown]; while the
    name stays registered the client is the same; and [createInstance] for
    a registered name returns the state it was given. *)
Theorem C10_entries_never_replaced :
  (∀ st op k c,
     instances st !! k = Some c →
     instances (step st op) !! k = Some c
     ∨ (instances (step st op) !! k = None
        ∧ ((∃ id c', op = Emit end_ id ∧ heap st !! id = Some c'
                     ∧ client_key c' = k)
           ∨ (∃ i quit_ok, op = Settle i quit_ok
                           ∧ instances (step st op) = ∅))))
  ∧ (∀ ops st k c c',
       instances st !! k = Some c →
       instances (run ops st) !! k = Some c' →
       (∀ n, n ≤ length ops →
             is_Some (instances (run (take n ops) st) !! k)) →
       c' = c)
  ∧ (∀ key opt st,
       is_Some (instances st !! key) → (createInstance key opt st).2 = st).
Proof.
  split; [|split].
  - intros st op k c H. destruct (step_entry st op k c H) as [Hs|Hs].
    + by left.
    + right. split; [done|]. by apply (step_removal st op k c).
  - apply run_entry.
  - intros key opt st [c Hc]. by rewrite (createInstance_existing key opt st c).
Qed.

(** A forced [init] with other options leaves [default] with the client of
    the first [init]. *)
Lemma C10_entries_never_replaced_witness :
  let st := (init two_config false initial).2 in
  let c := new_client "default" (config_get two_config "default") initial in
  let op := CallInit one_config true in
  instances (step st op) !! "default" = Some c
  ∨ (instances (step st op) !! "default" = None
     ∧ ((∃ id c', op = Emit end_ id ∧ heap st !! id = Some c'
                  ∧ client_key c' = "default")
        ∨ (∃ i quit_ok, op = Settle i quit_ok
                        ∧ instances (step st op) = ∅))).
Proof.
  intros st c op.
  apply (proj1 C10_entries_never_replaced st op "default" c).
  reflexivity.
Defined.

(** ** Shutdown *)

Lemma registered_entry st c :
  c ∈ registered st ↔ ∃ k, instances st !! k = Some c.
Proof.
  unfold registered. rewrite list_elem_of_fmap. split.
  - intros ([k c'] & -> & H). exists k. by apply elem_of_map_to_list.
  - intros [k H]. exists (k, c). split; [done|]. by apply elem_of_map_to_list.
Qed.

Lemma Promise_all_fulfilled quit_ok promises :
  Promise_all quit_ok promises = Fulfilled
  ↔ ∀ c, c ∈ promises → quit_ok c = true.
Proof.
  unfold Promise_all.
  destruct (forallb quit_ok promises) eqn:E.
  - split; [|done]. intros _ c Hc.
    rewrite forallb_forall in E. by apply E, list_elem_of_In.
  - split; [done|]. intros H.
    assert (forallb quit_ok promises = true) as E'; [|congruence].
    apply forallb_forall. intros c Hc. by apply H, list_elem_of_In.
Qed.

(** A client registered under [default] and one under [cache]; the close
    of the second one fails. *)
Definition cache_quit_fails (c : RedisClient) : bool :=
  negb (bool_decide (client_key c = "cache")).

(** As C2 is worded, a failed close would still end with the mapping
    cleared and the flag unset.  With two registered clients and the close
    of [cache] failing, the awaited [shutdown] settles with both entries in
    place and the flag set. *)
Lemma C2_shutdown_complete_counterexample :
  initialized two_clients = true
  ∧ ¬ (∀ st' r,
         shutdown_await cache_quit_fails two_clients = Some (st', r) →
         instances st' = ∅ ∧ initialized st' = false).
Proof.
  split; [reflexivity|]. intros H.
  edestruct H as [_ Hf]; [reflexivity|]. discriminate Hf.
Qed.

(** C2, amended: on an initialized registry, [shutdown] calls [quit] on
    every registered client before it waits for any of them, and parks
    with the promises of these clients; it resolves exactly when every one
    of these closes is fulfilled, and then the mapping is empty and the
    flag is unset, however many clients were registered; when a close
    fails it rejects, and the mapping and the flag are as they were.
    Fulfilled or rejected, the close requests stand: every registered
    client has been asked to quit.  The same holds of a parked [shutdown]
    that resumes in whatever state: it settles as its [Promise.all] does,
    withdraws no close request, on fulfilment leaves the mapping empty and
    the flag unset, on rejection leaves both as it finds them. *)
Theorem C2_shutdown_settlement quit_ok st :
  initialized st = true →
  ((∀ k c, instances st !! k = Some c → client_id c ∈ quitting (shutdown st))
   ∧ suspended (shutdown st) = suspended st ++ [registered st])
  ∧ (∃ st',
       shutdown_await quit_ok st
       = Some (st', Promise_all quit_ok (registered st))
       ∧ match Promise_all quit_ok (registered st) with
         | Fulfilled => instances st' = ∅ ∧ initialized st' = false
         | Rejected => instances st' = instances st ∧ initialized st' = true
         end
       ∧ quitting st' = quitting st ++ (client_id <$> registered st)
       ∧ ∀ k c, instances st !! k = Some c → client_id c ∈ quitting st')
  ∧ (Promise_all quit_ok (registered st) = Fulfilled
     ↔ ∀ k c, instances st !! k = Some c → quit_ok c = true)
  ∧ (∀ i st1 st1' r,
       shutdown_resume i quit_ok st1 = Some (st1', r) →
       (∃ promises, suspended st1 !! i = Some promises
                    ∧ r = Promise_all quit_ok promises)
       ∧ quitting st1' = quitting st1
       ∧ match r with
         | Fulfilled => instances st1' = ∅ ∧ initialized st1' = false
         | Rejected =>
             instances st1' = instances st1
             ∧ initialized st1' = initialized st1
         end).
Proof.
  intros Hi.
  assert (∀ k c, instances st !! k = Some c →
                 client_id c ∈ quitting st ++ (client_id <$> registered st))
    as Hasked.
  { intros k c H. apply elem_of_app. right. apply list_elem_of_fmap.
    exists c. split; [done|]. by apply (registered_elem st k). }
  assert (quitting (shutdown st)
          = quitting st ++ (client_id <$> registered st)) as Hq
    by (unfold shutdown; by rewrite Hi).
  split; [|split; [|split]].
  - split; [by rewrite Hq|]. unfold shutdown. by rewrite Hi.
  - unfold shutdown_await, shutdown_resume. rewrite Hi. simpl.
    rewrite (shutdown_parks st Hi).
    destruct (Promise_all quit_ok (registered st)); eexists;
      (split; [done|]); simpl; rewrite Hq.
    + by repeat split.
    + rewrite shutdown_instances. repeat split; try done.
      unfold shutdown. by rewrite Hi.
  - rewrite Promise_all_fulfilled. split.
    + intros H k c Hk. apply H, registered_entry. by exists k.
    + intros H c [k Hk]%registered_entry. by apply (H k).
  - intros i st1 st1' r. unfold shutdown_resume.
    destruct (suspended st1 !! i) as [promises|]; [|done].
    destruct (Promise_all quit_ok promises) eqn:E; intros [= <- <-]; simpl;
      (split; [by exists promises|]); by repeat split.
Qed.

(** Two registered clients and the close of [cache] failing: the call
    rejects, both clients have been asked to quit, both are still
    registered and the flag is set. *)
Lemma C2_shutdown_settlement_witness :
  ∃ st',
    shutdown_await cache_quit_fails two_clients
    = Some (st', Promise_all cache_quit_fails (registered two_clients))
    ∧ match Promise_all cache_quit_fails (registered two_clients) with
      | Fulfilled => instances st' = ∅ ∧ initialized st' = false
      | Rejected =>
          instances st' = instances two_clients ∧ initialized st' = true
      end
    ∧ quitting st'
      = quitting two_clients ++ (client_id <$> registered two_clients)
    ∧ ∀ k c, instances two_clients !! k = Some c →
             client_id c ∈ quitting st'.
Proof.
  apply (C2_shutdown_settlement cache_quit_fails two_clients).
  reflexivity.
Defined.

(** ** Forced initialization *)

(** The run of C1: a first [init], a forced [init] with one more name, the
    settlement of the shutdown that the forced [init] started, and a third
    [init]. *)
Definition after_first_init : State := (init one_config false initial).2.
Definition after_forced_init : State := (init two_config true after_first_init).2.
Definition after_settlement : State :=
  step after_forced_init (Settle 0 (λ _, true)).
Definition after_third_init : State :=
  (init two_config false after_settlement).2.

Definition first_default : RedisClient :=
  new_client "default" (config_get one_config "default") initial.
Definition first_cache : RedisClient :=
  new_client "cache" (config_get two_config "cache") after_first_init.
Definition second_cache : RedisClient :=
  {| client_id := 3;
     client_options := forced_options (config_get two_config "cache");
     client_key := "cache" |}.

(** C1 fails on the code: [init] does not wait for the shutdown it starts.
    When the forced [init] returns, the shutdown is parked at its [await],
    the mapping has not been cleared, [default] is still the first client,
    on which [quit] has been called, and the client of the new name
    [cache] has been constructed already.  When the closes settle, the
    mapping is cleared and the flag unset, new client included, although
    [quit] was never called on it.  After the next [init] two live clients
    exist for the name [cache]. *)
Theorem C1_forced_init_does_not_wait :
  suspended after_forced_init = [[first_default]]
  ∧ instances after_forced_init !! "default" = Some first_default
  ∧ client_id first_default ∈ quitting after_forced_init
  ∧ instances after_forced_init !! "cache" = Some first_cache
  ∧ heap after_forced_init = [first_default; first_cache]
  ∧ instances after_settlement = ∅
  ∧ initialized after_settlement = false
  ∧ instances after_third_init !! "cache" = Some second_cache
  ∧ second_cache ≠ first_cache
  ∧ client_key second_cache = client_key first_cache
  ∧ live after_third_init first_cache
  ∧ live after_third_init second_cache.
Proof.
  assert (∀ (x : nat) (l : list nat), bool_decide (x ∈ l) = true → x ∈ l)
    as Hin by (intros x l; apply bool_decide_eq_true_1).
  assert (∀ (x : nat) (l : list nat), bool_decide (x ∈ l) = false → x ∉ l)
    as Hout by (intros x l; apply bool_decide_eq_false_1).
  assert (live after_third_init first_cache) as Hlive1.
  { unfold live. split; [|split].
    - apply (list_elem_of_lookup_2 _ 1). reflexivity.
    - apply Hout. reflexivity.
    - apply Hout. reflexivity. }
  assert (live after_third_init second_cache) as Hlive2.
  { unfold live. split; [|split].
    - apply (list_elem_of_lookup_2 _ 3). reflexivity.
    - apply Hout. reflexivity.
    - apply Hout. reflexivity. }
  split; [reflexivity|]. split; [reflexivity|].
  split; [apply Hin; reflexivity|].
  split; [reflexivity|]. split; [reflexivity|]. split; [reflexivity|].
  split; [reflexivity|]. split; [reflexivity|].
  split; [intros [=]|]. split; [reflexivity|]. by split.
Qed.

(** ** The router across a forced initialization *)

Lemma init_force_quitting config st :
  initialized st = true →
  quitting (init config true st).2
  = quitting st ++ (client_id <$> registered st).
Proof.
  intros Hi. unfold init. rewrite Hi. simpl.
  pose proof (create_loop_frame (config_get config) (Object_keys config)
                (shutdown st)) as (_ & Hq & _).
  unfold create_all. rewrite Hq. unfold shutdown. by rewrite Hi.
Qed.

(** C4 fails on the code, by the defect of C1.  The router does resolve
    [default] at every read, but a forced [init] on an initialized
    registry with a default client puts no new client under [default]:
    after it, every router, old or new, forwards to the old client, on
    which [quit] has been called; and when the closes of the shutdown
    that the forced [init] left parked are fulfilled, every read through
    the router throws not-found.  In the run of C1 the forced [init] asks
    for other options of [default]; the router of the first [init] still
    forwards [get] to the first client, which holds the first options, no
    other client for [default] exists, and after the settlement the same
    read throws. *)
Theorem C4_forced_init_keeps_old_default :
  (∀ member config st d p prop,
     initialized st = true →
     instances st !! "default" = Some d →
     instances (init config true st).2 !! "default" = Some d
     ∧ client_id d ∈ quitting (init config true st).2
     ∧ proxy_get member p prop (init config true st).2
       = forward member d prop
     ∧ ∀ quit_ok,
         (∀ k c, instances st !! k = Some c → quit_ok c = true) →
         ∃ st2,
           shutdown_resume (length (suspended st)) quit_ok
             (init config true st).2 = Some (st2, Fulfilled)
           ∧ proxy_get member p prop st2 = Throw (NotFound "default"))
  ∧ initialized after_first_init = true
  ∧ instances after_first_init !! "default" = Some first_default
  ∧ config_get two_config "default" ≠ config_get one_config "default"
  ∧ client_options first_default
    = forced_options (config_get one_config "default")
  ∧ proxy_get sample_member (init one_config false initial).1 "get"
      after_forced_init
    = Ok (VBound "get" first_default)
  ∧ client_id first_default ∈ quitting after_forced_init
  ∧ (∀ c, c ∈ heap after_forced_init → client_key c = "default" →
          c = first_default)
  ∧ proxy_get sample_member (init one_config false initial).1 "get"
      after_settlement
    = Throw (NotFound "default").
Proof.
  split.
  - intros member config st d p prop Hi Hd.
    destruct (init_force_overlaps config st Hi) as [Hs Hk].
    pose proof (Hk "default" d Hd) as Hd'.
    split; [done|]. split; [|split].
    + rewrite (init_force_quitting config st Hi).
      apply elem_of_app. right. apply list_elem_of_fmap.
      exists d. split; [done|]. by apply (registered_elem st "default").
    + by rewrite proxy_get_current, Hd'.
    + intros quit_ok Hok. unfold shutdown_resume. rewrite Hs.
      rewrite lookup_app_r by done. rewrite Nat.sub_diag. simpl.
      assert (Promise_all quit_ok (registered st) = Fulfilled) as ->.
      { apply Promise_all_fulfilled. intros c [k H]%registered_entry.
        by apply (Hok k). }
      eexists. split; [done|]. by rewrite proxy_get_current.
  - split; [reflexivity|]. split; [reflexivity|]. split.
    { intros H. apply (f_equal (λ m : RedisOptions, m !! "host")) in H.
      discriminate H. }
    split; [reflexivity|]. split; [reflexivity|]. split.
    { apply (list_elem_of_lookup_2 _ 0). reflexivity. }
    split; [|reflexivity].
    intros c Hc Hkey.
    change (heap after_forced_init) with [first_default; first_cache] in Hc.
    apply elem_of_cons in Hc as [->|Hc]; [done|].
    apply list_elem_of_singleton in Hc. subst c. discriminate Hkey.
Qed.

(** ** The lookup operation of the router *)

(** The state after [init(two_config)] and the [end] event of the default
    client: [cache] is registered, [default] is not. *)
Definition default_ended : State :=
  run [CallInit two_config false; Emit end_ 0] initial.

(** C3 fails on the code: the [get] trap answers every read of the proxy,
    the read of [connection] included, and the function stored on the
    target is never reached.  So [proxy.connection(name)] throws not-found
    for [default] when no default client is registered, whatever is
    registered under [name]; throws the unsupported-operation error when the
    default client has no member [connection]; and otherwise reaches that
    member of the default client. *)
Theorem C3_router_connection_is_trapped :
  (∀ member name st,
     invoke member createProxy "connection" [name] st
     = match instances st !! "default" with
       | None => Raised (NotFound "default")
       | Some d =>
           match member d "connection" with
           | None => Raised (UnsupportedOperation "connection")
           | Some (MFunction f) => Forwarded f d [name]
           | Some (MPlain v) => NotAFunction v
           end
       end)
  ∧ target createProxy !! "connection" = Some ManagerConnection
  ∧ (∃ c, connection "cache" default_ended = Ok c)
  ∧ (∀ member,
       invoke member createProxy "connection" ["cache"] default_ended
       = Raised (NotFound "default"))
  ∧ (∃ c, connection "cache" two_clients = Ok c)
  ∧ invoke sample_member createProxy "connection" ["cache"] two_clients
    = Raised (UnsupportedOperation "connection").
Proof.
  split; [|split; [|split; [|split; [|split]]]].
  - intros member name st. unfold invoke. rewrite proxy_get_current.
    destruct (instances st !! "default") as [d|]; [|done].
    unfold forward. by destruct (member d "connection") as [[f|v]|].
  - reflexivity.
  - by eexists.
  - intros member. reflexivity.
  - by eexists.
  - reflexivity.
Qed.

(** * Further properties of the code *)

(** ** The backoff and the options of a constructed client *)

(** The delay of the forced retry strategy never exceeds 5000, grows with
    the attempt number, is [n * 100] up to attempt 50 and 5000 from there
    on, and is not negative for the attempt numbers of the transport. *)
Theorem backoff_bounds (n m : Z) :
  ∃ d e,
    retryStrategy n = Some d ∧ retryStrategy m = Some e
    ∧ (d ≤ 5000)%Z
    ∧ ((0 ≤ n)%Z → (0 ≤ d)%Z)
    ∧ ((n ≤ 50)%Z → d = (n * 100)%Z)
    ∧ ((50 ≤ n)%Z → d = 5000%Z)
    ∧ ((n ≤ m)%Z → (d ≤ e)%Z).
Proof.
  exists (Z.min (n * 100) 5000), (Z.min (m * 100) 5000).
  unfold retryStrategy. repeat split; lia.
Qed.

Lemma backoff_bounds_witness :
  retryStrategy 1 = Some 100%Z ∧ retryStrategy 50 = Some 5000%Z
  ∧ retryStrategy 51 = Some 5000%Z.
Proof.
  destruct (backoff_bounds 1 51) as (d & e & Hd & He & _ & _ & Hlo & _ & _).
  destruct (backoff_bounds 50 50) as (d' & _ & Hd' & _ & _ & _ & _ & Hhi & _).
  rewrite Hd, He, Hd'.
  rewrite (Hlo ltac:(lia)), (Hhi ltac:(lia)).
  repeat split. by injection He as <-.
Defined.

Definition forced_field (field : string) : bool :=
  bool_decide (field = "retryStrategy")
  || bool_decide (field = "enableOfflineQueue")
  || bool_decide (field = "maxRetriesPerRequest").

Lemma forced_options_other opt field :
  forced_field field = false → forced_options opt !! field = opt !! field.
Proof.
  unfold forced_field, forced_options. intros H.
  apply orb_false_iff in H as [H H3]. apply orb_false_iff in H as [H1 H2].
  apply bool_decide_eq_false in H1, H2, H3.
  by rewrite !lookup_insert_ne by done.
Qed.

(** Every option of the caller other than the three forced fields reaches
    the constructed client unchanged, and forcing the policy twice is the
    same as forcing it once. *)
Theorem options_pass_through key opt st field :
  instances st !! key = None →
  forced_field field = false →
  client_options (createInstance key opt st).1 !! field = opt !! field
  ∧ forced_options (forced_options opt) = forced_options opt.
Proof.
  intros Hk Hf. split.
  - destruct (createInstance_fresh key opt st Hk) as (-> & _).
    simpl. by apply forced_options_other.
  - unfold forced_options. apply map_eq. intros i.
    destruct (decide (i = "maxRetriesPerRequest")) as [->|H3];
      [|destruct (decide (i = "enableOfflineQueue")) as [->|H2];
        [|destruct (decide (i = "retryStrategy")) as [->|H1]]];
      repeat first [rewrite lookup_insert_eq
                   |rewrite lookup_insert_ne by done]; done.
Qed.

Lemma options_pass_through_witness :
  client_options
    (createInstance "cache" (config_get two_config "cache") initial).1
    !! "host"
  = Some (OStr "10.0.0.2").
Proof.
  destruct (options_pass_through "cache" (config_get two_config "cache")
              initial "host" eq_refl eq_refl) as [H _].
  rewrite H. reflexivity.
Defined.

(** ** What [init] registers *)

Lemma createInstance_dom key opt st :
  dom (instances (createInstance key opt st).2)
  = dom (instances st) ∪ {[key]}.
Proof.
  unfold createInstance.
  destruct (instances st !! key) as [c|] eqn:E; simpl.
  - assert (key ∈ dom (instances st)) by (apply elem_of_dom; eauto).
    set_solver.
  - rewrite dom_insert_L. set_solver.
Qed.

Lemma createInstance_heap key opt st c :
  c ∈ heap (createInstance key opt st).2 →
  c ∈ heap st ∨ (instances st !! key = None ∧ c = new_client key opt st).
Proof.
  unfold createInstance.
  destruct (instances st !! key) as [c'|] eqn:E; simpl; [by left|].
  intros [H|H]%elem_of_app; [by left|right].
  apply list_elem_of_singleton in H. by subst.
Qed.

Lemma createInstance_heap_mono key opt st c :
  c ∈ heap st → c ∈ heap (createInstance key opt st).2.
Proof.
  unfold createInstance. destruct (instances st !! key); simpl; [done|].
  intros H. apply elem_of_app. by left.
Qed.

Lemma createInstance_heap_length key opt st :
  length (heap st) ≤ length (heap (createInstance key opt st).2).
Proof.
  unfold createInstance. destruct (instances st !! key); simpl; [done|].
  rewrite length_app. lia.
Qed.

Section CreateLoop.

Variable f : string → RedisOptions.

Let loop (st : State) (keys : list string) : State :=
  foldl (λ s key, (createInstance key (f key) s).2) st keys.

Lemma create_loop_dom keys st :
  dom (instances (loop st keys)) = dom (instances st) ∪ list_to_set keys.
Proof.
  revert st. induction keys as [|key keys IH]; intros st; simpl.
  - set_solver.
  - unfold loop in IH. rewrite IH, createInstance_dom. set_solver.
Qed.

Lemma create_loop_heap_mono keys st c :
  c ∈ heap st → c ∈ heap (loop st keys).
Proof.
  revert st. induction keys as [|key keys IH]; intros st H; simpl; [done|].
  apply IH. by apply createInstance_heap_mono.
Qed.

Lemma create_loop_heap_length keys st :
  length (heap st) ≤ length (heap (loop st keys)).
Proof.
  revert st. induction keys as [|key keys IH]; intros st; simpl; [done|].
  etrans; [apply (createInstance_heap_length key (f key))|apply IH].
Qed.

(** A key of the loop that was not registered is registered afterwards
    with a client constructed in the loop from the options of that key. *)
Lemma create_loop_constructs keys st key :
  key ∈ keys → instances st !! key = None →
  ∃ c, instances (loop st keys) !! key = Some c
       ∧ client_key c = key
       ∧ client_options c = forced_options (f key)
       ∧ length (heap st) ≤ client_id c
       ∧ c ∈ heap (loop st keys).
Proof.
  revert st. induction keys as [|key' keys IH]; intros st Hin Hk; simpl.
  - by apply elem_of_nil in Hin.
  - destruct (decide (key' = key)) as [->|Hne].
    + exists (new_client key (f key) st).
      destruct (createInstance_fresh key (f key) st Hk) as (H1 & H2 & H3).
      split; [|repeat split; try done].
      * apply create_loop_keeps. rewrite H2. apply lookup_insert_eq.
      * apply create_loop_heap_mono. rewrite H3.
        apply elem_of_app. right. apply list_elem_of_here.
    + apply elem_of_cons in Hin as [->|Hin]; [done|].
      destruct (IH (createInstance key' (f key') st).2 Hin)
        as (c & H1 & H2 & H3 & H4 & H5).
      * unfold createInstance.
        destruct (instances st !! key'); simpl; [done|].
        by rewrite lookup_insert_ne.
      * exists c. repeat split; try done.
        etrans; [apply (createInstance_heap_length key' (f key'))|done].
Qed.

(** The loop registers every client that it constructs, under the key
    captured by the observers of that client. *)
Lemma create_loop_new_registered keys st c :
  c ∈ heap (loop st keys) →
  c ∈ heap st ∨ instances (loop st keys) !! client_key c = Some c.
Proof.
  revert st. induction keys as [|key keys IH]; intros st H; simpl in *;
    [by left|].
  destruct (IH _ H) as [H'|H']; [|by right].
  destruct (createInstance_heap _ _ _ _ H') as [?|[Hk ->]]; [by left|right].
  apply create_loop_keeps.
  destruct (createInstance_fresh key (f key) st Hk) as (_ & -> & _).
  simpl. apply lookup_insert_eq.
Qed.

End CreateLoop.

Lemma init_runs_loop config force st :
  initialized st = false ∨ force = true →
  (init config force st).2
  = set_initialized true
      (create_all config (if force then shutdown st else st)).
Proof.
  intros H. unfold init.
  destruct (initialized st && negb force) eqn:E; [|done].
  apply andb_true_iff in E as [E1 E2].
  destruct H as [H| ->]; [congruence|done].
Qed.

Lemma init_dom config force st :
  initialized st = false ∨ force = true →
  dom (instances (init config force st).2)
  = dom (instances st) ∪ list_to_set (Object_keys config).
Proof.
  intros H. rewrite (init_runs_loop config force st H). simpl.
  unfold create_all. rewrite create_loop_dom.
  destruct force; [by rewrite shutdown_instances|done].
Qed.

Lemma init_constructs config force st key :
  initialized st = false ∨ force = true →
  key ∈ Object_keys config →
  instances st !! key = None →
  ∃ c, instances (init config force st).2 !! key = Some c
       ∧ client_key c = key
       ∧ client_options c = forced_options (config_get config key)
       ∧ length (heap st) ≤ client_id c
       ∧ c ∈ heap (init config force st).2.
Proof.
  intros H Hin Hk. rewrite (init_runs_loop config force st H). simpl.
  unfold create_all.
  destruct (create_loop_constructs (config_get config) (Object_keys config)
              (if force then shutdown st else st) key Hin)
    as (c & H1 & H2 & H3 & H4 & H5).
  - destruct force; [by rewrite shutdown_instances|done].
  - exists c. repeat split; try done.
    destruct force; [by rewrite shutdown_heap in H4|done].
Qed.

(** When [init] runs its loop (the flag is unset, or [force] is given), the
    names registered afterwards are the names registered before together
    with the keys of the configuration; every client that [init] constructs
    is registered under its own key. *)
Theorem init_registers_config config force st :
  initialized st = false ∨ force = true →
  dom (instances (init config force st).2)
  = dom (instances st) ∪ list_to_set (Object_keys config)
  ∧ ∀ c, c ∈ heap (init config force st).2 →
         c ∈ heap st
         ∨ instances (init config force st).2 !! client_key c = Some c.
Proof.
  intros H. split; [by apply init_dom|].
  rewrite (init_runs_loop config force st H). simpl. unfold create_all.
  intros c Hc. apply create_loop_new_registered in Hc.
  destruct force; [by rewrite shutdown_heap in Hc|done].
Qed.

Lemma init_registers_config_witness :
  dom (instances (init two_config false initial).2)
  = dom (instances initial) ∪ list_to_set (Object_keys two_config).
Proof.
  apply (init_registers_config two_config false initial). by left.
Defined.

(** When [init] runs its loop, a key of the configuration that was not
    registered gets a client constructed by this call: its observers hold
    that key, its options are the options of that key with the policy
    forced, and it is none of the clients that existed before. *)
Theorem init_constructs_missing config force st key :
  initialized st = false ∨ force = true →
  key ∈ Object_keys config →
  instances st !! key = None →
  ∃ c, instances (init config force st).2 !! key = Some c
       ∧ client_key c = key
       ∧ client_options c = forced_options (config_get config key)
       ∧ length (heap st) ≤ client_id c
       ∧ c ∈ heap (init config force st).2.
Proof. apply init_constructs. Qed.

Lemma init_constructs_missing_witness :
  ∃ c, instances (init two_config false initial).2 !! "cache" = Some c
       ∧ client_key c = "cache"
       ∧ client_options c = forced_options (config_get two_config "cache")
       ∧ length (heap initial) ≤ client_id c
       ∧ c ∈ heap (init two_config false initial).2.
Proof.
  apply (init_constructs_missing two_config false initial "cache").
  - by left.
  - apply (list_elem_of_lookup_2 _ 1). reflexivity.
  - reflexivity.
Defined.

(** ** Invariants of the runs *)

(** The identity of a client is its position among the constructed
    clients; a registered client was constructed by the factory for the
    name under which it is registered. *)
Definition registry_ok (st : State) : Prop :=
  (∀ i c, heap st !! i = Some c → client_id c = i)
  ∧ (∀ k c, instances st !! k = Some c →
            client_key c = k ∧ heap st !! client_id c = Some c).

Lemma createInstance_ok key opt st :
  registry_ok st → registry_ok (createInstance key opt st).2.
Proof.
  intros [Hh Hi]. unfold createInstance.
  destruct (instances st !! key) as [c0|] eqn:E; simpl; [done|].
  split; simpl.
  - intros i c H. apply lookup_app_Some in H as [H|[Hl H]]; [by apply Hh|].
    apply list_lookup_singleton_Some in H as [H <-]. simpl. lia.
  - intros k c H. apply lookup_insert_Some in H as [[<- <-]|[Hne H]]; simpl.
    + split; [done|]. rewrite lookup_app_r by done.
      by rewrite Nat.sub_diag.
    + destruct (Hi k c H) as [Hk Hc]. split; [done|].
      apply lookup_app_Some. by left.
Qed.

Lemma create_all_ok config st : registry_ok st → registry_ok (create_all config st).
Proof.
  unfold create_all. generalize (Object_keys config) as keys.
  intros keys. revert st.
  induction keys as [|key keys IH]; intros st H; simpl; [done|].
  apply IH. by apply createInstance_ok.
Qed.

Lemma shutdown_ok st : registry_ok st → registry_ok (shutdown st).
Proof. unfold shutdown. by destruct (initialized st). Qed.

Lemma step_ok st op : registry_ok st → registry_ok (step st op).
Proof.
  intros H. destruct op as [config force| |i quit_ok|ev id]; simpl.
  - unfold init. destruct (initialized st && negb force); simpl; [done|].
    destruct (create_all_ok config (if force then shutdown st else st))
      as [H1 H2]; [destruct force; [by apply shutdown_ok|done]|].
    by split.
  - by apply shutdown_ok.
  - unfold shutdown_resume.
    destruct (suspended st !! i) as [promises|]; [|done].
    destruct H as [Hh Hi].
    destruct (Promise_all quit_ok promises); split; simpl; done.
  - destruct (heap st !! id) as [c0|]; [|done].
    destruct ev; simpl; try done.
    destruct H as [Hh Hi]. split; simpl; [done|].
    intros k c Hk. apply lookup_delete_Some in Hk as [_ Hk]. by apply Hi.
Qed.

Lemma run_ok ops st : registry_ok st → registry_ok (run ops st).
Proof.
  revert st. induction ops as [|op ops IH]; intros st H; simpl; [done|].
  apply IH. by apply step_ok.
Qed.

Lemma initial_ok : registry_ok initial.
Proof. split; intros ? ? H; by rewrite ?lookup_empty in H. Qed.

(** In every state that a run reaches from the start of the process: a
    client registered under a name was constructed for that name and is
    among the constructed clients; two constructed clients with the same
    identity are the same client; one client is never registered under
    two names. *)
Theorem registry_invariant ops :
  let st := run ops initial in
  (∀ k c, instances st !! k = Some c → client_key c = k ∧ c ∈ heap st)
  ∧ (∀ c c', c ∈ heap st → c' ∈ heap st → client_id c = client_id c' →
             c = c')
  ∧ (∀ k k' c, instances st !! k = Some c → instances st !! k' = Some c →
               k = k').
Proof.
  intros st. destruct (run_ok ops initial initial_ok) as [Hh Hi].
  fold st in Hh, Hi. split; [|split].
  - intros k c H. destruct (Hi k c H) as [Hk Hc]. split; [done|].
    by apply list_elem_of_lookup_2 in Hc.
  - intros c c' [i Hc]%list_elem_of_lookup [j Hc']%list_elem_of_lookup Hid.
    rewrite (Hh i c Hc), (Hh j c' Hc') in Hid. subst j. congruence.
  - intros k k' c H H'.
    destruct (Hi k c H) as [<- _]. by destruct (Hi k' c H') as [<- _].
Qed.

Lemma registry_invariant_witness :
  client_key (new_client "cache" (config_get two_config "cache")
                (init one_config false initial).2) = "cache".
Proof.
  apply (proj1 (registry_invariant [CallInit two_config false]) "cache").
  reflexivity.
Defined.

(** In every state that a run reaches, the mapping is empty whenever the
    flag is unset: [connection] then throws for every name, and [shutdown]
    does nothing. *)
Theorem flag_unset_registry_empty ops :
  initialized (run ops initial) = false →
  instances (run ops initial) = ∅
  ∧ (∀ key, connection key (run ops initial) = Throw (NotFound key))
  ∧ shutdown (run ops initial) = run ops initial.
Proof.
  intros Hi.
  pose proof (run_coherent ops initial initial_coherent Hi) as He.
  split; [done|]. split.
  - intros key. unfold connection. by rewrite He, lookup_empty.
  - unfold shutdown. by rewrite Hi.
Qed.

Lemma flag_unset_registry_empty_witness :
  instances (run [CallInit two_config false; CallShutdown;
                  Settle 0 (λ _, true)] initial) = ∅.
Proof.
  apply (flag_unset_registry_empty
           [CallInit two_config false; CallShutdown; Settle 0 (λ _, true)]).
  reflexivity.
Defined.

(** ** Transport events *)

(** In every reachable state, the [end] event of any constructed client
    deletes whatever is registered under the key that its observers hold,
    whether or not that is the client that ended; no other name and no
    other part of the state changes, and the five other events change
    nothing.  When the flag is set, a later [init] without [force] does not
    register the name again. *)
Theorem end_event_deletes_by_key ops c :
  let st := run ops initial in
  let st' := step st (Emit end_ (client_id c)) in
  c ∈ heap st →
  instances st' = delete (client_key c) (instances st)
  ∧ instances st' !! client_key c = None
  ∧ initialized st' = initialized st
  ∧ heap st' = heap st
  ∧ (∀ ev, ev ≠ end_ → step st (Emit ev (client_id c)) = st)
  ∧ (initialized st = true →
     ∀ config, (init config false st').2 = st').
Proof.
  intros st st' Hc.
  destruct (run_ok ops initial initial_ok) as [Hh _]. fold st in Hh.
  apply list_elem_of_lookup in Hc as [i Hi].
  pose proof (Hh i c Hi) as Hid. subst i.
  unfold st'. simpl. rewrite Hi. simpl.
  split; [done|]. split; [apply lookup_delete_eq|].
  split; [done|]. split; [done|]. split.
  - intros ev Hev. by destruct ev.
  - intros Hinit config. unfold init. simpl. by rewrite Hinit.
Qed.

(** The first default client ends after a second one was registered in its
    place: the entry of the second one is deleted. *)
Lemma end_event_deletes_by_key_witness :
  instances
    (step (run [CallInit one_config false; CallShutdown;
                Settle 0 (λ _, true); CallInit one_config false] initial)
          (Emit end_ 0)) !! "default"
  = None.
Proof.
  apply (end_event_deletes_by_key
           [CallInit one_config false; CallShutdown; Settle 0 (λ _, true);
            CallInit one_config false]
           (new_client "default" ∅ initial)).
  apply (list_elem_of_lookup_2 _ 0). reflexivity.
Defined.

(** ** Sequences of [shutdown] and [init] *)

Lemma shutdown_await_heap quit_ok st st' r :
  shutdown_await quit_ok st = Some (st', r) → heap st' = heap st.
Proof.
  unfold shutdown_await, shutdown_resume.
  destruct (initialized st) eqn:Hi; simpl; [|by intros [= <- _]].
  destruct (suspended (shutdown st) !! _) as [promises|]; [|done].
  destruct (Promise_all quit_ok promises); intros [= <- _]; simpl;
    apply shutdown_heap.
Qed.

Lemma shutdown_await_fulfilled quit_ok st st' :
  shutdown_await quit_ok st = Some (st', Fulfilled) →
  initialized st' = false ∧ (initialized st = true → instances st' = ∅).
Proof.
  unfold shutdown_await, shutdown_resume.
  destruct (initialized st) eqn:Hi; simpl; [|by intros [= <-]].
  destruct (suspended (shutdown st) !! _) as [promises|]; [|done].
  by destruct (Promise_all quit_ok promises); intros [= <-].
Qed.

(** A [shutdown] that follows a resolved [shutdown] does nothing and
    resolves at once. *)
Theorem shutdown_twice quit_ok quit_ok' st st' :
  shutdown_await quit_ok st = Some (st', Fulfilled) →
  shutdown st' = st'
  ∧ shutdown_await quit_ok' st' = Some (st', Fulfilled).
Proof.
  intros H. destruct (shutdown_await_fulfilled _ _ _ H) as [Hi _].
  unfold shutdown_await, shutdown. by rewrite Hi.
Qed.

Lemma shutdown_twice_witness :
  ∃ st', shutdown_await (λ _, true) two_clients = Some (st', Fulfilled)
         ∧ shutdown_await cache_quit_fails st' = Some (st', Fulfilled).
Proof.
  eexists. split; [reflexivity|].
  apply (shutdown_twice (λ _, true) cache_quit_fails two_clients).
  reflexivity.
Defined.

(** After a [shutdown] that resolved on an initialized registry, [init]
    registers exactly the keys of its configuration, each with a client
    that did not exist before, constructed from the options of that key,
    and sets the flag. *)
Theorem shutdown_then_init quit_ok config st st' :
  initialized st = true →
  shutdown_await quit_ok st = Some (st', Fulfilled) →
  dom (instances (init config false st').2)
  = list_to_set (Object_keys config)
  ∧ initialized (init config false st').2 = true
  ∧ ∀ key, key ∈ Object_keys config →
      ∃ c, instances (init config false st').2 !! key = Some c
           ∧ client_key c = key
           ∧ client_options c = forced_options (config_get config key)
           ∧ length (heap st) ≤ client_id c.
Proof.
  intros Hi H.
  destruct (shutdown_await_fulfilled _ _ _ H) as [Hi' He].
  specialize (He Hi). pose proof (shutdown_await_heap _ _ _ _ H) as Hh.
  split; [|split].
  - rewrite (init_dom config false st') by (by left).
    rewrite He. set_solver.
  - apply init_initialized.
  - intros key Hk.
    destruct (init_constructs config false st' key)
      as (c & H1 & H2 & H3 & H4 & _); [by left|done|by rewrite He|].
    exists c. rewrite <- Hh. by repeat split.
Qed.

Lemma shutdown_then_init_witness :
  ∃ st', shutdown_await (λ _, true) two_clients = Some (st', Fulfilled)
         ∧ dom (instances (init one_config false st').2)
           = list_to_set (Object_keys one_config).
Proof.
  eexists. split; [reflexivity|].
  apply (shutdown_then_init (λ _, true) one_config two_clients);
    reflexivity.
Defined.

(** A forced [init] on an initialized registry calls [quit] on every
    registered client and leaves each of them registered; it constructs
    clients only for names that were not registered, and returns with the
    shutdown parked.  When every close of that shutdown is fulfilled and
    it resumes, the mapping is left empty and the flag unset. *)
Theorem forced_init_then_settlement config st :
  initialized st = true →
  (∀ k c, instances st !! k = Some c →
          instances (init config true st).2 !! k = Some c
          ∧ client_id c ∈ quitting (init config true st).2)
  ∧ (∀ c, c ∈ heap (init config true st).2 → c ∉ heap st →
          instances st !! client_key c = None)
  ∧ suspended (init config true st).2 = suspended st ++ [registered st]
  ∧ ∀ quit_ok,
      (∀ k c, instances st !! k = Some c → quit_ok c = true) →
      ∃ st2,
        shutdown_resume (length (suspended st)) quit_ok
          (init config true st).2 = Some (st2, Fulfilled)
        ∧ instances st2 = ∅ ∧ initialized st2 = false.
Proof.
  intros Hi.
  destruct (init_force_overlaps config st Hi) as [Hs Hk].
  assert (quitting (init config true st).2
          = quitting st ++ (client_id <$> registered st)) as Hq.
  { rewrite (init_runs_loop config true st) by (by right). simpl.
    unfold create_all.
    pose proof (create_loop_frame (config_get config) (Object_keys config)
                  (shutdown st)) as (_ & -> & _).
    unfold shutdown. by rewrite Hi. }
  split; [|split; [|split]].
  - intros k c H. split; [by apply Hk|]. rewrite Hq.
    apply elem_of_app. right. apply list_elem_of_fmap.
    exists c. split; [done|]. by apply (registered_elem st k).
  - intros c Hc Hn.
    destruct (instances st !! client_key c) as [c'|] eqn:E; [|done].
    exfalso.
    rewrite (init_runs_loop config true st) in Hc by (by right).
    simpl in Hc. unfold create_all in Hc.
    revert Hc Hn E. rewrite <- (shutdown_heap st), <- (shutdown_instances st).
    generalize (shutdown st) as s. generalize (Object_keys config) as keys.
    induction keys as [|key keys IH]; intros s Hc Hn E; simpl in Hc; [done|].
    apply (IH (createInstance key (config_get config key) s).2 Hc).
    + intros H. apply createInstance_heap in H as [H|[Hk' ->]]; [done|].
      simpl in E. congruence.
    + by apply createInstance_keeps.
  - done.
  - intros quit_ok Hok. unfold shutdown_resume. rewrite Hs.
    rewrite lookup_app_r by done. rewrite Nat.sub_diag. simpl.
    assert (Promise_all quit_ok (registered st) = Fulfilled) as ->.
    { apply Promise_all_fulfilled. intros c [k H]%registered_entry.
      by apply (Hok k). }
    by eexists.
Qed.

Lemma forced_init_then_settlement_witness :
  suspended (init two_config true (init one_config false initial).2).2
  = suspended (init one_config false initial).2
    ++ [registered (init one_config false initial).2].
Proof.
  apply (forced_init_then_settlement two_config
           (init one_config false initial).2).
  reflexivity.
Defined.

(** ** Termination signals *)

Inductive Signal := SIGINT | SIGTERM.

(** The process around the class: the state of the class, the number of
    listeners that [registerShutdownHooks] has installed for each of the two
    signals, and the status passed to [process.exit], once it was called. *)
Record Process := {
  manager : State;
  sigint_handlers : nat;
  sigterm_handlers : nat;
  exit_called : option Z
}.

Definition boot : Process :=
  {| manager := initial; sigint_handlers := 0; sigterm_handlers := 0;
     exit_called := None |}.

Definition with_manager (st : State) (p : Process) : Process :=
  {| manager := st; sigint_handlers := sigint_handlers p;
     sigterm_handlers := sigterm_handlers p; exit_called := exit_called p |}.

(** [process.exit(0)] *)
Definition process_exit (status : Z) (p : Process) : Process :=
  {| manager := manager p; sigint_handlers := sigint_handlers p;
     sigterm_handlers := sigterm_handlers p; exit_called := Some status |}.

(** [RedisManager.init] called in the process. *)
Definition process_init (config : Config) (force : bool) (p : Process)
  : Process :=
  with_manager (init config force (manager p)).2 p.

(** [registerShutdownHooks]: when the flag is set, one more listener for
    each signal; nothing otherwise. *)
Definition registerShutdownHooks (p : Process) : Process :=
  if initialized (manager p) then
    {| manager := manager p;
       sigint_handlers := S (sigint_handlers p);
       sigterm_handlers := S (sigterm_handlers p);
       exit_called := exit_called p |}
  else p.

Definition handlers (sig : Signal) (p : Process) : nat :=
  match sig with
  | SIGINT => sigint_handlers p
  | SIGTERM => sigterm_handlers p
  end.

(** The delivery of a signal to the listeners of this class.  Each
    listener is [async () => { await RedisManager.shutdown();
    process.exit(0) }]: the listeners run one after the other up to their
    [await], so each of them calls [shutdown].  When the flag is unset the
    promises they await are resolved already and the first listener goes
    on to [process.exit(0)].  Nothing runs in a process that has exited. *)
Definition deliver (sig : Signal) (p : Process) : Process :=
  match exit_called p with
  | Some _ => p
  | None =>
      match handlers sig p with
      | 0 => p
      | S n =>
          if initialized (manager p)
          then with_manager (Nat.iter (S n) shutdown (manager p)) p
          else process_exit 0 p
      end
  end.

(** The rest of a listener whose [shutdown] is the [i]-th parked call,
    when that call settles: [process.exit(0)] after fulfilment; after
    rejection the [await] throws and [process.exit] is not reached. *)
Definition handler_resume (i : nat) (quit_ok : RedisClient → bool)
  (p : Process) : Process :=
  match exit_called p with
  | Some _ => p
  | None =>
      match shutdown_resume i quit_ok (manager p) with
      | Some (st', Fulfilled) => process_exit 0 (with_manager st' p)
      | Some (st', Rejected) => with_manager st' p
      | None => p
      end
  end.

Lemma shutdown_registered st : registered (shutdown st) = registered st.
Proof. unfold registered. by rewrite shutdown_instances. Qed.

Lemma shutdown_initialized st : initialized (shutdown st) = initialized st.
Proof. unfold shutdown. by destruct (initialized st) eqn:E. Qed.

Lemma shutdown_calls_quit st :
  initialized st = true →
  suspended (shutdown st) = suspended st ++ [registered st]
  ∧ quitting (shutdown st) = quitting st ++ (client_id <$> registered st).
Proof. intros Hi. unfold shutdown. by rewrite Hi. Qed.

Lemma shutdown_iter n st :
  initialized st = true →
  instances (Nat.iter n shutdown st) = instances st
  ∧ initialized (Nat.iter n shutdown st) = true
  ∧ heap (Nat.iter n shutdown st) = heap st
  ∧ suspended (Nat.iter n shutdown st)
    = suspended st ++ replicate n (registered st)
  ∧ quitting (Nat.iter n shutdown st)
    = quitting st ++ mjoin (replicate n (client_id <$> registered st)).
Proof.
  intros Hi. induction n as [|n (H1 & H2 & H3 & H4 & H5)].
  - simpl. by rewrite !app_nil_r.
  - change (Nat.iter (S n) shutdown st)
      with (shutdown (Nat.iter n shutdown st)).
    destruct (shutdown_calls_quit _ H2) as [Hs Hq].
    rewrite shutdown_instances, shutdown_initialized, shutdown_heap, Hs, Hq.
    assert (registered (Nat.iter n shutdown st) = registered st) as ->
      by (unfold registered; by rewrite H1).
    rewrite H4, H5, !replicate_S_end, join_app, <- !app_assoc. simpl.
    by rewrite app_nil_r.
Qed.

Lemma registerShutdownHooks_iter n p sig :
  initialized (manager p) = true →
  manager (Nat.iter n registerShutdownHooks p) = manager p
  ∧ exit_called (Nat.iter n registerShutdownHooks p) = exit_called p
  ∧ handlers sig (Nat.iter n registerShutdownHooks p) = handlers sig p + n.
Proof.
  intros Hi. induction n as [|n (H1 & H2 & H3)].
  - simpl. by rewrite Nat.add_0_r.
  - change (Nat.iter (S n) registerShutdownHooks p)
      with (registerShutdownHooks (Nat.iter n registerShutdownHooks p)).
    unfold registerShutdownHooks at 1 3 5. rewrite H1, Hi.
    destruct sig; simpl in *; rewrite ?H3; repeat split; try done; lia.
Qed.

(** A process that called [init], then [registerShutdownHooks] once. *)
Definition hooked : Process :=
  registerShutdownHooks (process_init two_config false boot).

(** [registerShutdownHooks] called while the flag is unset installs
    nothing, and a later [init] does not make up for it: a signal then
    runs no [shutdown] and no [process.exit]. *)
Theorem hooks_before_init_are_dropped config force sig p :
  initialized (manager p) = false →
  handlers sig p = 0 →
  registerShutdownHooks p = p
  ∧ deliver sig (process_init config force (registerShutdownHooks p))
    = process_init config force p.
Proof.
  intros Hi Hh.
  assert (registerShutdownHooks p = p) as ->
    by (unfold registerShutdownHooks; by rewrite Hi).
  split; [done|]. unfold deliver.
  destruct (exit_called (process_init config force p)); [done|].
  assert (handlers sig (process_init config force p) = 0) as ->
    by (by destruct sig).
  done.
Qed.

Lemma hooks_before_init_are_dropped_witness :
  deliver SIGTERM (process_init two_config false (registerShutdownHooks boot))
  = process_init two_config false boot.
Proof.
  apply (hooks_before_init_are_dropped two_config false SIGTERM boot);
    reflexivity.
Defined.

(** Registration is not deduplicated: [n] calls of
    [registerShutdownHooks] on an initialized registry install [n] more
    listeners for each signal and change nothing else.  A signal then makes
    every listener call [shutdown]: one more parked call per listener, each
    waiting for the same registered clients, on each of which [quit] is
    called once per listener; the mapping and the flag are not changed
    before a parked call resumes. *)
Theorem hooks_accumulate n sig p :
  initialized (manager p) = true →
  exit_called p = None →
  let p' := Nat.iter n registerShutdownHooks p in
  let m := handlers sig p + n in
  handlers sig p' = m
  ∧ manager p' = manager p
  ∧ instances (manager (deliver sig p')) = instances (manager p)
  ∧ initialized (manager (deliver sig p')) = true
  ∧ suspended (manager (deliver sig p'))
    = suspended (manager p) ++ replicate m (registered (manager p))
  ∧ quitting (manager (deliver sig p'))
    = quitting (manager p)
      ++ mjoin (replicate m (client_id <$> registered (manager p)))
  ∧ exit_called (deliver sig p') = None.
Proof.
  intros Hi He p' m.
  destruct (registerShutdownHooks_iter n p sig Hi) as (H1 & H2 & H3).
  fold p' in H1, H2, H3. fold m in H3.
  split; [done|]. split; [done|].
  unfold deliver. rewrite H2, He, H3.
  destruct m as [|m'].
  - simpl. rewrite H1, !app_nil_r, H2. by repeat split.
  - rewrite H1, Hi. simpl manager. simpl exit_called.
    destruct (shutdown_iter (S m') (manager p) Hi) as (I1 & I2 & I3 & I4 & I5).
    rewrite H2. by repeat split.
Qed.

Lemma hooks_accumulate_witness :
  handlers SIGINT (Nat.iter 2 registerShutdownHooks hooked) = 3
  ∧ length (suspended
              (manager (deliver SIGINT
                          (Nat.iter 2 registerShutdownHooks hooked)))) = 3.
Proof.
  destruct (hooks_accumulate 2 SIGINT hooked eq_refl eq_refl)
    as (H1 & _ & _ & _ & H2 & _).
  split; [exact H1|]. rewrite H2. reflexivity.
Defined.

(** A signal delivered to a running process with at least one listener.
    With the flag set: when every close is fulfilled and the first
    listener resumes, the mapping is empty, the flag is unset and
    [process.exit(0)] is called; when a close fails, the mapping and the
    flag are as before the signal and [process.exit] is not called by that
    listener.  With the flag unset, [process.exit(0)] is called and the
    class state is not touched. *)
Theorem signal_shutdown_exit sig quit_ok p :
  exit_called p = None →
  0 < handlers sig p →
  if initialized (manager p) then
    let p2 := handler_resume (length (suspended (manager p))) quit_ok
                (deliver sig p) in
    match Promise_all quit_ok (registered (manager p)) with
    | Fulfilled =>
        instances (manager p2) = ∅ ∧ initialized (manager p2) = false
        ∧ exit_called p2 = Some 0%Z
    | Rejected =>
        instances (manager p2) = instances (manager p)
        ∧ initialized (manager p2) = true
        ∧ exit_called p2 = None
    end
  else deliver sig p = process_exit 0 p.
Proof.
  intros He Hh. unfold deliver. rewrite He.
  destruct (handlers sig p) as [|n] eqn:En; [lia|].
  destruct (initialized (manager p)) eqn:Hi; [|done].
  destruct (shutdown_iter (S n) (manager p) Hi) as (I1 & I2 & I3 & I4 & I5).
  unfold handler_resume, shutdown_resume, with_manager.
  cbn [manager exit_called]. rewrite He, I4.
  rewrite lookup_app_r by done. rewrite Nat.sub_diag.
  change (replicate (S n) (registered (manager p)) !! 0)
    with (Some (registered (manager p))).
  cbv iota beta.
  destruct (Promise_all quit_ok (registered (manager p)));
    unfold process_exit; cbn [manager exit_called instances initialized].
  - done.
  - by rewrite I1, I2.
Qed.

Lemma signal_shutdown_exit_witness :
  instances
    (manager (handler_resume 0 (λ _, true) (deliver SIGTERM hooked))) = ∅
  ∧ initialized
      (manager (handler_resume 0 (λ _, true) (deliver SIGTERM hooked)))
    = false
  ∧ exit_called (handler_resume 0 (λ _, true) (deliver SIGTERM hooked))
    = Some 0%Z.
Proof.
  exact (signal_shutdown_exit SIGTERM (λ _, true) hooked eq_refl
           (Nat.lt_0_succ 0)).
Defined.

(** ** Lookup and routing after [init] *)

(** When [init] runs its loop, [connection] succeeds afterwards for every
    key of the configuration, with the client that was registered already
    when there was one; and when [default] is among the keys, no read
    through the router throws not-found. *)
Theorem init_then_connection config force st key :
  initialized st = false ∨ force = true →
  key ∈ Object_keys config →
  (∃ c, connection key (init config force st).2 = Ok c
        ∧ ∀ c', instances st !! key = Some c' → c = c')
  ∧ (key = "default" →
     ∀ member p prop e,
       proxy_get member p prop (init config force st).2 = Throw e →
       e = UnsupportedOperation prop).
Proof.
  intros H Hin.
  assert (∃ c, instances (init config force st).2 !! key = Some c
               ∧ ∀ c', instances st !! key = Some c' → c = c')
    as (c & Hc & Hold).
  { destruct (instances st !! key) as [c'|] eqn:E.
    - exists c'. split; [by apply init_keeps|]. by intros ? [= ->].
    - destruct (init_constructs config force st key H Hin E) as (c & Hc & _).
      by exists c. }
  split.
  - exists c. unfold connection. by rewrite Hc.
  - intros -> member p prop e. rewrite proxy_get_current, Hc.
    unfold forward. by destruct (member c prop) as [[f|v]|]; intros [= <-].
Qed.

Lemma init_then_connection_witness :
  ∃ c, connection "default" (init two_config true two_clients).2 = Ok c
       ∧ ∀ c', instances two_clients !! "default" = Some c' → c = c'.
Proof.
  apply (init_then_connection two_config true two_clients "default").
  - by right.
  - apply (list_elem_of_lookup_2 _ 0). reflexivity.
Defined.

(** A configuration without the key [default] is accepted: when [init]
    runs its loop on a registry without a default client, it sets the flag,
    and afterwards every read through the router throws not-found for
    [default].  With the empty configuration the mapping is left as it
    was. *)
Theorem init_without_default config force st :
  initialized st = false ∨ force = true →
  instances st !! "default" = None →
  "default" ∉ Object_keys config →
  initialized (init config force st).2 = true
  ∧ (∀ member p prop,
       proxy_get member p prop (init config force st).2
       = Throw (NotFound "default"))
  ∧ (config = [] → instances (init config force st).2 = instances st).
Proof.
  intros H Hd Hn. split; [apply init_initialized|]. split.
  - intros member p prop. rewrite proxy_get_current.
    assert ("default" ∉ dom (instances (init config force st).2)) as Hdom.
    { rewrite (init_dom config force st H).
      apply not_elem_of_dom in Hd. set_solver. }
    apply not_elem_of_dom in Hdom. by rewrite Hdom.
  - intros ->. rewrite (init_runs_loop [] force st H). simpl.
    destruct force; [apply shutdown_instances|done].
Qed.

Lemma init_without_default_witness :
  proxy_get sample_member createProxy "get"
    (init [("cache", ∅)] false initial).2
  = Throw (NotFound "default").
Proof.
  apply (init_without_default [("cache", ∅)] false initial).
  - by left.
  - reflexivity.
  - intros H. apply list_elem_of_singleton in H. discriminate H.
Defined.

End Redis.
